(** * ProxyDetailedLogsDialog: the live log console of the proxy

    A shallow embedding of
    [src/renderer/src/components/proxy/ProxyDetailedLogsDialog.tsx]:
    the log entries and their JSON payload, the export line format, the
    category options, the client-side filter, and the component's state
    with the asynchronous fetch / clear handlers as an event-driven
    transition system.

    Conventions of the embedding.
    - JavaScript strings are [string]s; the text modelled is ASCII, on which
      [toLowerCase] maps [A-Z] to [a-z] and the default sort order of
      [Array.prototype.sort] is the lexicographic order on character codes.
    - The [unknown] payload [data] is a JSON value.  Numbers are the integers
      that JavaScript prints in plain decimal notation.
    - Variables a closure of the component captures become parameters. *)

From Stdlib Require Import ZArith Ascii String List Bool DecimalString.
From stdpp Require Import base list strings sorting gmap.

Local Open Scope Z_scope.
Local Set Warnings "-register-all".

(** ** Characters and strings *)

Module Js.

Definition dquote : ascii := ascii_of_N 34.
Definition backslash : ascii := ascii_of_N 92.
Definition newline : string := String (ascii_of_N 10) "".

(** [String.prototype.toLowerCase] on one ASCII character. *)
Definition lower_ascii (c : ascii) : ascii :=
  let n := N_of_ascii c in
  if ((65 <=? n) && (n <=? 90))%N then ascii_of_N (n + 32) else c.

(** [s.toLowerCase()] on ASCII text, where it works character by
    character.  Outside ASCII the real function follows the Unicode case
    mapping and can depend on the context of a character (the final sigma);
    the properties that need the character-wise behaviour are stated for
    ASCII text. *)
Fixpoint toLowerCase (s : string) : string :=
  match s with
  | EmptyString => EmptyString
  | String c r => String (lower_ascii c) (toLowerCase r)
  end.

(** [s.startsWith(p)]. *)
Fixpoint startsWith (s p : string) {struct p} : bool :=
  match p, s with
  | EmptyString, _ => true
  | String _ _, EmptyString => false
  | String a p', String b s' => Ascii.eqb a b && startsWith s' p'
  end.

(** [s.includes(sub)]: [sub] occurs in [s] at some offset. *)
Fixpoint includes (s sub : string) : bool :=
  startsWith s sub ||
  match s with
  | EmptyString => false
  | String _ s' => includes s' sub
  end.

(** A string is truthy iff it is not empty. *)
Definition nonempty (s : string) : bool :=
  match s with EmptyString => false | String _ _ => true end.

(** [arr.join(sep)]. *)
Definition join (sep : string) (arr : list string) : string :=
  String.concat sep arr.

(** The declarative reading of [includes]. *)
Definition is_substring (sub s : string) : Prop :=
  exists pre post, s = pre +:+ sub +:+ post.

End Js.

(** ** JSON values and [JSON.stringify] *)

Inductive json : Type :=
| JNull
| JBool (b : bool)
| JNum (n : Z)
| JStr (s : string)
| JArr (items : list json)
| JObj (props : list (string * json)).

Module JSON.

Definition hex_digit (n : N) : ascii :=
  if (n <? 10)%N then ascii_of_N (48 + n) else ascii_of_N (87 + n).

(** One character of a quoted JSON string. *)
Definition escape_char (c : ascii) : string :=
  let n := N_of_ascii c in
  if (n =? 34)%N then String Js.backslash (String Js.dquote "")
  else if (n =? 92)%N then String Js.backslash (String Js.backslash "")
  else if (n =? 8)%N then "\b"
  else if (n =? 9)%N then "\t"
  else if (n =? 10)%N then "\n"
  else if (n =? 12)%N then "\f"
  else if (n =? 13)%N then "\r"
  else if (n <? 32)%N then
    "\u00" +:+ String (hex_digit (n / 16)) (String (hex_digit (n mod 16)) "")
  else String c "".

Fixpoint escape (s : string) : string :=
  match s with
  | EmptyString => EmptyString
  | String c r => escape_char c +:+ escape r
  end.

Definition quote (s : string) : string :=
  String Js.dquote (escape s +:+ String Js.dquote "").

Definition number (n : Z) : string :=
  NilZero.string_of_int (Z.to_int n).

(** [JSON.stringify(v)] with no indentation: a single line.  The properties
    of an object are listed in their enumeration order. *)
Fixpoint stringify (v : json) : string :=
  match v with
  | JNull => "null"
  | JBool true => "true"
  | JBool false => "false"
  | JNum n => number n
  | JStr s => quote s
  | JArr items => "[" +:+ Js.join "," (List.map stringify items) +:+ "]"
  | JObj props =>
      "{" +:+
      Js.join ","
        (List.map (fun kv => quote (fst kv) +:+ ":" +:+ stringify (snd kv)) props)
      +:+ "}"
  end.

(** Truthiness of a value, as tested by [v ? a : b] and [v && e]. *)
Definition truthy (v : json) : bool :=
  match v with
  | JNull => false
  | JBool b => b
  | JNum n => negb (n =? 0)
  | JStr s => Js.nonempty s
  | JArr _ | JObj _ => true
  end.

End JSON.

(** ** Log entries *)

(** [interface LogEntry].  The optional [data] is [None] when the field is
    absent or [undefined]. *)
Record LogEntry : Type := mkLogEntry {
  timestamp : string;
  level : string;
  category : string;
  message : string;
  data : option json
}.

(** [hasData] of the row renderer:
    [log.data !== undefined && log.data !== null]. *)
Definition hasData (log : LogEntry) : bool :=
  match data log with
  | None => false
  | Some JNull => false
  | Some _ => true
  end.

(** ** Export *)

(** The callback mapped over the logs by [handleExportLogs]:
    [const dataStr = log.data ? ` | ${JSON.stringify(log.data)}` : '']
    followed by the template of the line. *)
Definition formatLine (log : LogEntry) : string :=
  let dataStr :=
    match data log with
    | Some v => if JSON.truthy v then " | " +:+ JSON.stringify v else ""
    | None => ""
    end in
  "[" +:+ timestamp log +:+ "] [" +:+ level log +:+ "] [" +:+ category log
      +:+ "] " +:+ message log +:+ dataStr.

(** The [content] that [handleExportLogs] hands to the download: it maps
    over [logs], the state variable. *)
Definition handleExportLogs (logs : list LogEntry) : string :=
  Js.join Js.newline (List.map formatLine logs).

(** The size a list of lines takes once joined, counting a separator
    after every line. *)
Fixpoint weight (lines : list string) : nat :=
  match lines with
  | [] => 0%nat
  | line :: rest => (S (String.length line) + weight rest)%nat
  end.

(** ** Category options *)

(** [new Set(iterable)] keeps the first occurrence of every value, in
    insertion order; [Array.from] lists them in that order. *)
Definition set_add (seen : list string) (x : string) : list string :=
  if bool_decide (x ∈ seen) then seen else seen ++ [x].

Definition Set_from (xs : list string) : list string :=
  fold_left set_add xs [].

(** [Array.prototype.sort()] with no comparator. *)
Definition sort (xs : list string) : list string :=
  merge_sort String.le xs.

(** [Array.from(new Set(logs.map(log => log.category))).sort()]. *)
Definition categories (logs : list LogEntry) : list string :=
  sort (Set_from (List.map category logs)).

(** ** Filter *)

(** The callback of [logs.filter] in [filteredLogs]. *)
Definition filterCallback (levelFilter categoryFilter searchText : string)
    (log : LogEntry) : bool :=
  if negb (String.eqb levelFilter "all")
     && negb (String.eqb (level log) levelFilter) then false
  else if negb (String.eqb categoryFilter "all")
     && negb (String.eqb (category log) categoryFilter) then false
  else if Js.nonempty searchText then
    let search := Js.toLowerCase searchText in
    Js.includes (Js.toLowerCase (message log)) search
    || Js.includes (Js.toLowerCase (category log)) search
    || match data log with
       | Some v =>
           JSON.truthy v && Js.includes (Js.toLowerCase (JSON.stringify v)) search
       | None => false
       end
  else true.

Definition filteredLogs (logs : list LogEntry)
    (levelFilter categoryFilter searchText : string) : list LogEntry :=
  List.filter (filterCallback levelFilter categoryFilter searchText) logs.

(** ** Component state *)

(** The [useState] variables of [ProxyDetailedLogsDialog] and the
    [pollIntervalRef] ref.  A browser timer handle is a positive integer. *)
Record State : Type := mkState {
  logs : list LogEntry;
  loading : bool;
  searchText : string;
  levelFilter : string;
  categoryFilter : string;
  autoScroll : bool;
  expandedLogs : gset nat;
  pollIntervalRef : option positive
}.

Definition setLogs (v : list LogEntry) (s : State) : State :=
  mkState v (loading s) (searchText s) (levelFilter s) (categoryFilter s)
    (autoScroll s) (expandedLogs s) (pollIntervalRef s).
Definition setLoading (v : bool) (s : State) : State :=
  mkState (logs s) v (searchText s) (levelFilter s) (categoryFilter s)
    (autoScroll s) (expandedLogs s) (pollIntervalRef s).
Definition setSearchText (v : string) (s : State) : State :=
  mkState (logs s) (loading s) v (levelFilter s) (categoryFilter s)
    (autoScroll s) (expandedLogs s) (pollIntervalRef s).
Definition setLevelFilter (v : string) (s : State) : State :=
  mkState (logs s) (loading s) (searchText s) v (categoryFilter s)
    (autoScroll s) (expandedLogs s) (pollIntervalRef s).
Definition setCategoryFilter (v : string) (s : State) : State :=
  mkState (logs s) (loading s) (searchText s) (levelFilter s) v
    (autoScroll s) (expandedLogs s) (pollIntervalRef s).
Definition setAutoScroll (v : bool) (s : State) : State :=
  mkState (logs s) (loading s) (searchText s) (levelFilter s) (categoryFilter s)
    v (expandedLogs s) (pollIntervalRef s).
Definition setExpandedLogs (v : gset nat) (s : State) : State :=
  mkState (logs s) (loading s) (searchText s) (levelFilter s) (categoryFilter s)
    (autoScroll s) v (pollIntervalRef s).
Definition setPollIntervalRef (v : option positive) (s : State) : State :=
  mkState (logs s) (loading s) (searchText s) (levelFilter s) (categoryFilter s)
    (autoScroll s) (expandedLogs s) v.

(** The initial values of the hooks. *)
Definition initialState : State :=
  mkState [] false "" "all" "all" true ∅ None.

(** The visible rows of a state. *)
Definition visibleLogs (s : State) : list LogEntry :=
  filteredLogs (logs s) (levelFilter s) (categoryFilter s) (searchText s).

(** [toggleExpand]. *)
Definition toggleExpand (index : nat) (s : State) : State :=
  let newExpanded :=
    if bool_decide (index ∈ expandedLogs s)
    then expandedLogs s ∖ {[index]}
    else expandedLogs s ∪ {[index]} in
  setExpandedLogs newExpanded s.

(** ** The asynchronous handlers *)

(** How a promise of the log store settles. *)
Inductive settled (A : Type) : Type :=
| Resolved (value : A)
| Rejected (error : string).
Arguments Resolved {A} value.
Arguments Rejected {A} error.

(** A call to the log store that has not settled yet.  [GetLogsInitial] is
    the call of the effect, which carries [.finally(() => setLoading(false))];
    [GetLogs] is a call from the interval timer or the refresh button. *)
Inductive pending_call : Type :=
| GetLogsInitial
| GetLogs
| ClearLogs.

(** The component in its environment: the [open] prop, the interval timers
    the browser holds, the calls in flight and the lines written with
    [console.error]. *)
Record World : Type := mkWorld {
  st : State;
  open : bool;
  timers : gset positive;
  nextTimer : positive;
  pending : list pending_call;
  console : list string
}.

Definition withState (f : State -> State) (w : World) : World :=
  mkWorld (f (st w)) (open w) (timers w) (nextTimer w) (pending w) (console w).
Definition withOpen (b : bool) (w : World) : World :=
  mkWorld (st w) b (timers w) (nextTimer w) (pending w) (console w).
Definition withPending (p : list pending_call) (w : World) : World :=
  mkWorld (st w) (open w) (timers w) (nextTimer w) p (console w).
Definition consoleError (line : string) (w : World) : World :=
  mkWorld (st w) (open w) (timers w) (nextTimer w) (pending w)
    (console w ++ [line]).

(** [setInterval(loadLogs, 2000)]: a fresh handle, registered. *)
Definition setInterval (w : World) : positive * World :=
  let id := nextTimer w in
  (id, mkWorld (st w) (open w) (timers w ∪ {[id]}) (Pos.succ id)
         (pending w) (console w)).
(** [clearInterval(id)]. *)
Definition clearInterval (id : positive) (w : World) : World :=
  mkWorld (st w) (open w) (timers w ∖ {[id]}) (nextTimer w)
    (pending w) (console w).

(** [loadLogs] up to its [await]: the call to [proxyGetLogs] is issued. *)
Definition loadLogs_call (c : pending_call) (w : World) : World :=
  withPending (pending w ++ [c]) w.

(** [loadLogs] from its [await] on: [setLogs(result)], or the [catch]. *)
Definition loadLogs_resume (r : settled (list LogEntry)) (w : World) : World :=
  match r with
  | Resolved result => withState (setLogs result) w
  | Rejected error => consoleError ("Failed to load logs: " +:+ error) w
  end.

(** [handleClearLogs] up to its [await]. *)
Definition handleClearLogs_call (w : World) : World :=
  withPending (pending w ++ [ClearLogs]) w.

(** [handleClearLogs] from its [await] on: [setLogs([])], or the [catch]. *)
Definition handleClearLogs_resume (r : settled unit) (w : World) : World :=
  match r with
  | Resolved _ => withState (setLogs []) w
  | Rejected error => consoleError ("Failed to clear logs: " +:+ error) w
  end.

(** The clean-up of the polling effect. *)
Definition effect_cleanup (w : World) : World :=
  match pollIntervalRef (st w) with
  | Some id => withState (setPollIntervalRef None) (clearInterval id w)
  | None => w
  end.

(** The body of the polling effect. *)
Definition effect_body (w : World) : World :=
  if open w then
    let w1 := withState (setLoading true) w in
    let w2 := loadLogs_call GetLogsInitial w1 in
    let '(id, w3) := setInterval w2 in
    withState (setPollIntervalRef (Some id)) w3
  else w.

(** ** The component as a transition system *)

(** What can happen to the mounted component.  The reactions run one at a
    time on the event loop. *)
Inductive Event : Type :=
| SetOpen (b : bool)                  (* the parent renders with this [open] *)
| Tick (id : positive)                (* the interval timer [id] fires *)
| GetLogsSettled (i : nat) (r : settled (list LogEntry))
| ClearLogsSettled (i : nat) (r : settled unit)
| ClickRefresh
| ClickClear
| ChangeSearch (text : string)
| ChangeLevel (value : string)
| ChangeCategory (value : string)
| ClickAutoScroll
| ClickExpand (index : nat).

(** The events of the operator: they need the rendered dialog. *)
Definition user_event (e : Event) : bool :=
  match e with
  | SetOpen _ | Tick _ | GetLogsSettled _ _ | ClearLogsSettled _ _ => false
  | _ => true
  end.

(** The reaction to an event; [None] when the event cannot happen in this
    state (a timer that is not registered, a call that is not in flight, a
    control that is not rendered or is disabled). *)
Definition step (w : World) (e : Event) : option World :=
  match e with
  | SetOpen b =>
      if Bool.eqb b (open w) then Some w
      else Some (effect_body (withOpen b (effect_cleanup w)))
  | Tick id =>
      if bool_decide (id ∈ timers w) then Some (loadLogs_call GetLogs w)
      else None
  | GetLogsSettled i r =>
      match pending w !! i with
      | Some GetLogsInitial =>
          Some (withState (setLoading false)
                  (loadLogs_resume r (withPending (delete i (pending w)) w)))
      | Some GetLogs =>
          Some (loadLogs_resume r (withPending (delete i (pending w)) w))
      | _ => None
      end
  | ClearLogsSettled i r =>
      match pending w !! i with
      | Some ClearLogs =>
          Some (handleClearLogs_resume r (withPending (delete i (pending w)) w))
      | _ => None
      end
  | ClickRefresh =>
      if open w && negb (loading (st w)) then Some (loadLogs_call GetLogs w)
      else None
  | ClickClear =>
      if open w && negb (Nat.eqb (length (logs (st w))) 0)
      then Some (handleClearLogs_call w)
      else None
  | ChangeSearch text =>
      if open w then Some (withState (setSearchText text) w) else None
  | ChangeLevel value =>
      if open w then Some (withState (setLevelFilter value) w) else None
  | ChangeCategory value =>
      if open w then Some (withState (setCategoryFilter value) w) else None
  | ClickAutoScroll =>
      if open w
      then Some (withState (setAutoScroll (negb (autoScroll (st w)))) w)
      else None
  | ClickExpand index =>
      match visibleLogs (st w) !! index with
      | Some log =>
          if open w && hasData log
          then Some (withState (toggleExpand index) w)
          else None
      | None => None
      end
  end.

(** The component right after it is mounted hidden. *)
Definition initialWorld : World :=
  mkWorld initialState false ∅ 1%positive [] [].

(** A run of events. *)
Fixpoint run (w : World) (es : list Event) : option World :=
  match es with
  | [] => Some w
  | e :: es' =>
      match step w e with
      | Some w' => run w' es'
      | None => None
      end
  end.

(** The states the mounted component can be in. *)
Inductive reachable : World -> Prop :=
| reachable_init : reachable initialWorld
| reachable_step w e w' : reachable w -> step w e = Some w' -> reachable w'.

(** The polling invariant: the browser holds exactly the timer of the ref,
    and holds one exactly while the dialog is open. *)
Definition poll_inv (w : World) : Prop :=
  match pollIntervalRef (st w) with
  | Some id => open w = true /\ timers w = {[id]}
  | None => open w = false /\ timers w = ∅
  end.

(** ** The spec's export function, and sample data *)


(** The entry of the specification's scenario. *)
Definition auth_entry : LogEntry :=
  mkLogEntry "2024-01-01T00:00:00.000Z" "ERROR" "auth" "failed"
    (Some (JObj [("code", JNum 401)])).

(** An entry without payload, and one whose payload is the number zero. *)
Definition info_entry : LogEntry :=
  mkLogEntry "t" "INFO" "c" "m" None.
Definition zero_entry : LogEntry :=
  mkLogEntry "t" "INFO" "c" "m" (Some (JNum 0)).

Definition entry_of_category (c : string) : LogEntry :=
  mkLogEntry "t" "INFO" c "m" None.

(** The dialog after it was opened and closed again, with the first call to
    the store still in flight. *)
Definition hidden_in_flight : World :=
  mkWorld (mkState [] true "" "all" "all" true ∅ None)
    false ∅ 2%positive [GetLogsInitial] [].

(** The open dialog showing one entry, with a poll and a clear in flight. *)
Definition open_in_flight : World :=
  mkWorld (mkState [info_entry] false "" "all" "all" true {[0%nat]} (Some 1%positive))
    true {[1%positive]} 2%positive [GetLogs; ClearLogs] [].

(** ** The other functions of the component *)

Definition colon : ascii := ":"%char.
Definition dot : ascii := "."%char.
Definition dash : ascii := "-"%char.

(** [s.replace(/[:.]/g, '-')]. *)
Fixpoint replace_colon_dot (s : string) : string :=
  match s with
  | EmptyString => EmptyString
  | String c r =>
      String (if Ascii.eqb c colon || Ascii.eqb c dot then dash else c)
        (replace_colon_dot r)
  end.

(** The [download] name of [handleExportLogs], from the text [iso] that
    [new Date().toISOString()] gives at the export. *)
Definition exportFileName (iso : string) : string :=
  "proxy-logs-" +:+ replace_colon_dot iso +:+ ".log".

(** The characters of a string. *)
Fixpoint chars (s : string) : list ascii :=
  match s with
  | EmptyString => []
  | String c r => c :: chars r
  end.

(** [getLevelColor]. *)
Definition getLevelColor (level : string) : string :=
  if String.eqb level "ERROR"
  then "bg-destructive/20 text-destructive border-destructive/30"
  else if String.eqb level "WARN"
  then "bg-yellow-500/20 text-yellow-500 border-yellow-500/30"
  else if String.eqb level "INFO"
  then "bg-primary/20 text-primary border-primary/30"
  else if String.eqb level "DEBUG"
  then "bg-muted text-muted-foreground border-muted"
  else "bg-muted text-muted-foreground border-muted".

(** [getLevelRowBg]. *)
Definition getLevelRowBg (level : string) : string :=
  if String.eqb level "ERROR"
  then "bg-destructive/5 hover:bg-destructive/10"
  else if String.eqb level "WARN"
  then "bg-yellow-500/5 hover:bg-yellow-500/10"
  else if String.eqb level "INFO" then "hover:bg-primary/5"
  else if String.eqb level "DEBUG" then "hover:bg-muted/50"
  else "hover:bg-muted/50".

(** A decimal digit. *)
Definition is_digit (c : ascii) : bool :=
  ((48 <=? N_of_ascii c) && (N_of_ascii c <=? 57))%N.

(** [s.padStart(n, fill)] for a one-character [fill]. *)
Fixpoint repeat_char (n : nat) (c : ascii) : string :=
  match n with
  | O => EmptyString
  | S n' => String c (repeat_char n' c)
  end.
Definition padStart (n : nat) (fill : ascii) (s : string) : string :=
  repeat_char (n - String.length s) fill +:+ s.

(** [formatTime].  The clock of the host is a parameter: [Date_parse] is
    [new Date(timestamp).getTime()], [None] when that is [NaN], else the
    milliseconds since the epoch, and [toLocaleTimeString] is the call with
    the zh-CN options of the source.  [getMilliseconds()] is the time modulo
    1000.  Nothing in the [try] block throws, so the [catch] is not
    reached. *)
Section formatTime.
Variable Date_parse : string -> option Z.
Variable toLocaleTimeString : Z -> string.

Definition formatTime (timestamp : string) : string :=
  if negb (Js.nonempty timestamp) then "-"
  else
    match Date_parse timestamp with
    | None => if Js.nonempty timestamp then timestamp else "-"
    | Some t =>
        toLocaleTimeString t +:+ "." +:+ padStart 3 "0" (JSON.number (t mod 1000))
    end.
End formatTime.

(** [interface DropdownOption], without the icon. *)
Record DropdownOption : Type := mkOption {
  opt_value : string;
  opt_label : string
}.

(** [options.find(opt => opt.value === value)] of [CustomDropdown]. *)
Definition selectedOption (options : list DropdownOption) (value : string)
    : option DropdownOption :=
  List.find (fun opt => String.eqb (opt_value opt) value) options.

(** The options of the category dropdown: the entry for all categories,
    then one option per category. *)
Definition categoryOptions (logs : list LogEntry) : list DropdownOption :=
  mkOption "all" "全部类别"
    :: List.map (fun cat => mkOption cat cat) (categories logs).

(** What the list area renders: one of the two placeholders, or the rows
    with their position. *)
Inductive ListArea : Type :=
| NoLogsYet
| NoMatchingLogs
| Rows (rows : list (nat * LogEntry)).

Definition listArea (s : State) : ListArea :=
  if Nat.eqb (length (visibleLogs s)) 0 then
    if Nat.eqb (length (logs s)) 0 then NoLogsYet else NoMatchingLogs
  else Rows (imap (fun index log => (index, log)) (visibleLogs s)).

(** Whether the row at [index] shows its payload:
    [isExpanded && hasData]. *)
Definition showsPayload (s : State) (index : nat) : bool :=
  match visibleLogs s !! index with
  | Some log => bool_decide (index ∈ expandedLogs s) && hasData log
  | None => false
  end.

(** A text of ASCII characters only. *)
Definition is_ascii (s : string) : bool :=
  forallb (fun c => (N_of_ascii c <? 128)%N) (chars s).

(** A character that is not a control character. *)
Definition printable (c : ascii) : bool := (32 <=? N_of_ascii c)%N.

(** A character of a printed integer: a digit or the minus sign. *)
Definition number_char (c : ascii) : bool := is_digit c || Ascii.eqb c dash.

(** [JSON.stringify(v, null, 2)] below the indentation [indent]: an array
    or object that is not empty puts every member on a line of its own, two
    spaces deeper, and an object puts a space after the colon. *)
Fixpoint stringify_indent (indent : string) (v : json) : string :=
  let inner := indent +:+ "  " in
  let separator := "," +:+ Js.newline +:+ inner in
  match v with
  | JArr items =>
      match items with
      | [] => "[]"
      | _ =>
          "[" +:+ Js.newline +:+ inner
            +:+ Js.join separator (List.map (stringify_indent inner) items)
            +:+ Js.newline +:+ indent +:+ "]"
      end
  | JObj props =>
      match props with
      | [] => "{}"
      | _ =>
          "{" +:+ Js.newline +:+ inner
            +:+ Js.join separator
                  (List.map
                     (fun kv =>
                        JSON.quote (fst kv) +:+ ": "
                          +:+ stringify_indent inner (snd kv))
                     props)
            +:+ Js.newline +:+ indent +:+ "}"
      end
  | _ => JSON.stringify v
  end.

(** The text [handleCopyLog] writes to the clipboard. *)
Definition handleCopyLog (log : LogEntry) : string :=
  let dataStr :=
    match data log with
    | Some v =>
        if JSON.truthy v
        then Js.newline +:+ "Data: " +:+ stringify_indent "" v
        else ""
    | None => ""
    end in
  "[" +:+ timestamp log +:+ "] [" +:+ level log +:+ "] [" +:+ category log
      +:+ "]" +:+ Js.newline +:+ message log +:+ dataStr.

(** A JSON text without its layout: the spaces and newlines outside string
    literals are dropped.  [inside] tells that the text is read inside a
    string literal, [escaped] that the character follows a backslash. *)
Fixpoint strip_layout (inside escaped : bool) (s : string) : string :=
  match s with
  | EmptyString => EmptyString
  | String c r =>
      if inside then
        if escaped then String c (strip_layout true false r)
        else if Ascii.eqb c Js.backslash then String c (strip_layout true true r)
        else if Ascii.eqb c Js.dquote then String c (strip_layout false false r)
        else String c (strip_layout true false r)
      else
        if Ascii.eqb c Js.dquote then String c (strip_layout true false r)
        else if Ascii.eqb c " " || Ascii.eqb c (ascii_of_N 10)
        then strip_layout false false r
        else String c (strip_layout false false r)
  end.

(** [loading] is raised only together with a first call. *)
Definition loading_inv (w : World) : Prop :=
  loading (st w) = true -> GetLogsInitial ∈ pending w.

(** The dialog right after it was opened: the first call is in flight and
    the timer runs. *)
Definition just_opened : World :=
  mkWorld (mkState [] true "" "all" "all" true ∅ (Some 1%positive))
    true {[1%positive]} 2%positive [GetLogsInitial] [].

(** The open dialog showing the entry of the scenario, collapsed. *)
Definition showing_auth : World :=
  mkWorld (mkState [auth_entry] false "" "all" "all" true ∅ (Some 1%positive))
    true {[1%positive]} 2%positive [] [].

(** * Properties *)

(** ** Strings *)

Section strings.
Implicit Types s p sub : string.

Lemma append_cons a s p : String a s +:+ p = String a (s +:+ p).
Proof. reflexivity. Qed.

Lemma startsWith_spec s p :
  Js.startsWith s p = true <-> exists rest, s = p +:+ rest.
Proof.
  revert s. induction p as [|a p IH]; intros s; simpl.
  - split; [intros _; by exists s | done].
  - destruct s as [|b s].
    + split; [done | intros [rest Hrest]; rewrite append_cons in Hrest; done].
    + rewrite andb_true_iff, IH. split.
      * intros [Hab [rest ->]]. apply Ascii.eqb_eq in Hab as ->. by exists rest.
      * intros [rest Hrest]. rewrite append_cons in Hrest.
        injection Hrest as -> ->. split; [apply Ascii.eqb_refl | by exists rest].
Qed.

Lemma includes_spec s sub :
  Js.includes s sub = true <-> Js.is_substring sub s.
Proof.
  unfold Js.is_substring. induction s as [|a s IH].
  - simpl. rewrite orb_false_r, startsWith_spec. split.
    + intros [rest ->]. by exists "", rest.
    + intros ([|b pre] & post & Heq); [by exists post|].
      rewrite append_cons in Heq. done.
  - cbn [Js.includes]. rewrite orb_true_iff, startsWith_spec, IH. split.
    + intros [[rest ->] | (pre & post & ->)].
      * by exists "", rest.
      * by exists (String a pre), post.
    + intros ([|b pre] & post & Heq).
      * left. by exists post.
      * right. rewrite append_cons in Heq. injection Heq as -> ->.
        by exists pre, post.
Qed.

Lemma nonempty_spec s : Js.nonempty s = true <-> s <> "".
Proof. destruct s; simpl; split; done. Qed.
End strings.

(** ** The filter *)

Section filter.
Implicit Types (logs : list LogEntry) (log : LogEntry).

Lemma filteredLogs_sublist logs lv cat search :
  filteredLogs logs lv cat search `sublist_of` logs.
Proof.
  unfold filteredLogs. induction logs as [|log logs IH]; simpl.
  - constructor.
  - destruct (filterCallback lv cat search log); by constructor.
Qed.

Lemma elem_of_filteredLogs logs lv cat search log :
  log ∈ filteredLogs logs lv cat search <->
  log ∈ logs /\ filterCallback lv cat search log = true.
Proof.
  unfold filteredLogs. rewrite !list_elem_of_In. apply filter_In.
Qed.

(** The callback when only a category is selected. *)
Lemma filterCallback_category cat log :
  filterCallback "all" cat "" log
  = String.eqb cat "all" || String.eqb (category log) cat.
Proof.
  unfold filterCallback. simpl.
  destruct (String.eqb cat "all"), (String.eqb (category log) cat); done.
Qed.

(** The text criterion of the callback, for a search text that is not
    empty: the payload is searched when it is truthy. *)
Lemma filterCallback_search search log :
  search <> "" ->
  filterCallback "all" "all" search log = true <->
    Js.is_substring (Js.toLowerCase search) (Js.toLowerCase (message log))
    \/ Js.is_substring (Js.toLowerCase search) (Js.toLowerCase (category log))
    \/ exists v, data log = Some v /\ JSON.truthy v = true /\
         Js.is_substring (Js.toLowerCase search)
           (Js.toLowerCase (JSON.stringify v)).
Proof.
  intros Hne%nonempty_spec. unfold filterCallback. simpl. rewrite Hne.
  rewrite !orb_true_iff, !includes_spec.
  destruct (data log) as [v|].
  - rewrite andb_true_iff, includes_spec. split.
    + intros [[?|?]|[??]]; [by left | by right; left | right; right].
      by exists v.
    + intros [?|[?|(v' & [= <-] & ? & ?)]]; auto.
  - split.
    + intros [[?|?]|?]; [by left | by right; left | done].
    + intros [?|[?|(v' & [=] & _)]]; auto.
Qed.
End filter.

(** ** The category options *)

Section categories.
Implicit Types (xs seen : list string) (x y : string).

Lemma elem_of_fold_set_add xs seen x :
  x ∈ fold_left set_add xs seen <-> x ∈ seen \/ x ∈ xs.
Proof.
  revert seen. induction xs as [|y xs IH]; intros seen; simpl.
  - rewrite elem_of_nil. tauto.
  - rewrite IH, elem_of_cons. unfold set_add. case_bool_decide as Hy.
    + split; [tauto|]. intros [?|[->|?]]; auto.
    + rewrite elem_of_app, list_elem_of_singleton. tauto.
Qed.

Lemma NoDup_fold_set_add xs seen :
  NoDup seen -> NoDup (fold_left set_add xs seen).
Proof.
  revert seen. induction xs as [|y xs IH]; intros seen Hseen; simpl; [done|].
  apply IH. unfold set_add. case_bool_decide as Hy; [done|].
  apply NoDup_app. split_and!; [done | | apply NoDup_singleton].
  intros z Hz ->%list_elem_of_singleton. done.
Qed.

Lemma elem_of_Set_from xs x : x ∈ Set_from xs <-> x ∈ xs.
Proof.
  unfold Set_from. rewrite elem_of_fold_set_add, elem_of_nil. tauto.
Qed.

Lemma NoDup_Set_from xs : NoDup (Set_from xs).
Proof. apply NoDup_fold_set_add, NoDup_nil_2. Qed.

Lemma elem_of_sort xs x : x ∈ sort xs <-> x ∈ xs.
Proof. unfold sort. by rewrite merge_sort_Permutation. Qed.

Lemma NoDup_sort xs : NoDup xs -> NoDup (sort xs).
Proof. unfold sort. by rewrite merge_sort_Permutation. Qed.

Lemma le_neq_ltb x y : String.le x y -> x <> y -> String.ltb x y = true.
Proof.
  unfold String.le, String.leb, String.ltb. intros Hle Hne.
  destruct (String.compare x y) eqn:Hc; [|done..].
  by apply String.compare_eq_iff in Hc.
Qed.

Lemma StronglySorted_strict xs :
  StronglySorted String.le xs -> NoDup xs ->
  StronglySorted (fun x y => String.ltb x y = true) xs.
Proof.
  induction 1 as [|x xs Hxs IH Hall]; intros Hnd; constructor.
  - apply IH. by apply NoDup_cons in Hnd as [_ ?].
  - apply NoDup_cons in Hnd as [Hx _].
    apply Forall_forall. intros y Hy. apply le_neq_ltb.
    + rewrite Forall_forall in Hall. by apply Hall.
    + intros ->. done.
Qed.

Lemma elem_of_categories (logs : list LogEntry) x :
  x ∈ categories logs <-> exists log, log ∈ logs /\ category log = x.
Proof.
  unfold categories. rewrite elem_of_sort, elem_of_Set_from.
  rewrite !list_elem_of_In, in_map_iff.
  split; intros (log & H1 & H2); exists log.
  - by rewrite list_elem_of_In.
  - by rewrite <- list_elem_of_In.
Qed.
End categories.

(** ** The export *)

Section export.
Implicit Types (logs : list LogEntry) (log : LogEntry) (lines : list string).
Local Open Scope nat_scope.

Lemma length_append (s p : string) :
  String.length (s +:+ p) = String.length s + String.length p.
Proof. induction s as [|a s IH]; [done|]. rewrite append_cons. simpl. lia. Qed.

Lemma length_join_newline lines :
  String.length (Js.join Js.newline lines) = Nat.pred (weight lines).
Proof.
  unfold Js.join. induction lines as [|line [|line' rest] IH].
  - done.
  - simpl. lia.
  - change (String.concat Js.newline (line :: line' :: rest))
      with (line +:+ Js.newline +:+ String.concat Js.newline (line' :: rest)).
    rewrite !length_append, IH. simpl. lia.
Qed.

Lemma formatLine_cons log : exists rest, formatLine log = String "[" rest.
Proof. unfold formatLine. rewrite append_cons. eauto. Qed.




End export.

(** ** The transition system *)

(** Unfolds a reaction down to the record it builds. *)
Ltac world_simpl :=
  unfold step, loadLogs_call, handleClearLogs_call, loadLogs_resume,
    handleClearLogs_resume, effect_body, effect_cleanup, setInterval,
    clearInterval, consoleError, withState, withOpen, withPending,
    toggleExpand, visibleLogs in *;
  cbn in *.

Section machine.
Implicit Types (w : World) (e : Event) (s : State).

Lemma eqb_false_negb (b c : bool) : Bool.eqb b c = false -> b = negb c.
Proof. by destruct b, c. Qed.

(** Only a change of [open] touches the timers. *)
Lemma step_poll_frame w e w' :
  step w e = Some w' -> (forall b, e <> SetOpen b) ->
  pollIntervalRef (st w') = pollIntervalRef (st w)
  /\ open w' = open w /\ timers w' = timers w.
Proof.
  intros Hstep Hne. destruct e; [by destruct (Hne b)|..]; world_simpl;
    repeat (case_match; try done); simplify_eq; try destruct r; done.
Qed.

Lemma poll_inv_step w e w' : poll_inv w -> step w e = Some w' -> poll_inv w'.
Proof.
  intros Hinv Hstep.
  assert ((exists b, e = SetOpen b) \/ forall b, e <> SetOpen b) as [[b ->]|Hne]
    by (destruct e; eauto).
  - revert Hinv Hstep. unfold poll_inv. world_simpl.
    destruct (Bool.eqb b (open w)) eqn:Hb; [by intros ? [= <-]|].
    apply eqb_false_negb in Hb as ->.
    destruct (pollIntervalRef (st w)) as [id|];
      intros [Hopen Htimers]; rewrite Hopen, Htimers; cbn;
      intros [= <-]; cbn; (split; [done|]).
    + apply difference_diag_L.
    + apply union_empty_l_L.
  - destruct (step_poll_frame w e w' Hstep Hne) as (H1 & H2 & H3).
    unfold poll_inv in *. by rewrite H1, H2, H3.
Qed.

Lemma reachable_poll_inv w : reachable w -> poll_inv w.
Proof.
  induction 1 as [|w e w' _ IH Hstep]; [done|]. by eapply poll_inv_step.
Qed.

Lemma reachable_run w es w' : reachable w -> run w es = Some w' -> reachable w'.
Proof.
  revert w. induction es as [|e es IH]; intros w Hw; simpl.
  - by intros [= <-].
  - destruct (step w e) as [w1|] eqn:Hstep; [|done].
    apply IH. by eapply reachable_step.
Qed.

(** While the dialog is hidden no timer is registered. *)
Lemma hidden_no_timer w :
  reachable w -> open w = false ->
  timers w = ∅ /\ pollIntervalRef (st w) = None.
Proof.
  intros Hinv%reachable_poll_inv Hopen. unfold poll_inv in Hinv.
  destruct (pollIntervalRef (st w)); destruct Hinv as [? ?]; [congruence|done].
Qed.

(** A user event that is enabled stays enabled when the dialog stays
    rendered over the same rows and [loading] is not raised. *)
Lemma user_event_enabled_mono w w' e :
  open w' = open w ->
  logs (st w') = logs (st w) ->
  searchText (st w') = searchText (st w) ->
  levelFilter (st w') = levelFilter (st w) ->
  categoryFilter (st w') = categoryFilter (st w) ->
  (loading (st w') = true -> loading (st w) = true) ->
  user_event e = true ->
  is_Some (step w e) -> is_Some (step w' e).
Proof.
  intros Hop Hlg Hse Hlv Hca Hld Hue.
  destruct e; try discriminate Hue; cbn; unfold visibleLogs;
    rewrite ?Hop, ?Hlg, ?Hse, ?Hlv, ?Hca.
  - destruct (open w); cbn; [|by intros [? ?]].
    destruct (loading (st w')); [|by eauto].
    rewrite Hld by done. by intros [? ?].
  - destruct (open w && _); [eauto | by intros [? ?]].
  - destruct (open w); [eauto | by intros [? ?]].
  - destruct (open w); [eauto | by intros [? ?]].
  - destruct (open w); [eauto | by intros [? ?]].
  - destruct (open w); [eauto | by intros [? ?]].
  - destruct (_ !! index) as [log|]; [|by intros [? ?]].
    destruct (open w && _); [eauto | by intros [? ?]].
Qed.
End machine.

(** * The claims *)

(** ** Filter engine *)

(** C5. For every snapshot and every filter criteria, the visible list is a
    subsequence of the snapshot: every visible entry occurs in the snapshot
    and the visible entries keep the relative order they have there. *)
Theorem C5_visible_is_subsequence :
  forall (logs : list LogEntry) (levelFilter categoryFilter searchText : string),
    filteredLogs logs levelFilter categoryFilter searchText `sublist_of` logs
    /\ forall log,
         log ∈ filteredLogs logs levelFilter categoryFilter searchText ->
         log ∈ logs.
Proof.
  intros logs lv cat search. split.
  - apply filteredLogs_sublist.
  - intros log Hlog. by apply elem_of_filteredLogs in Hlog as [? _].
Qed.

(** C6. Filtering with level "all", category "all" and the empty search text
    returns the snapshot itself. *)
Theorem C6_identity_filter :
  forall logs : list LogEntry, filteredLogs logs "all" "all" "" = logs.
Proof.
  intros logs. unfold filteredLogs.
  induction logs as [|log logs IH]; [done|].
  change (log :: List.filter (filterCallback "all" "all" "") logs = log :: logs).
  by rewrite IH.
Qed.

(** C10. Every category offered by the category options selects at least
    one row when it is the only criterion. *)
Theorem C10_listed_category_selects_rows :
  forall (logs : list LogEntry) (c : string),
    c ∈ categories logs -> filteredLogs logs "all" c "" <> [].
Proof.
  intros logs c (log & Hlog & <-)%elem_of_categories Hnil.
  assert (log ∈ filteredLogs logs "all" (category log) "") as Hin.
  { apply elem_of_filteredLogs. split; [done|].
    rewrite filterCallback_category, String.eqb_refl. apply orb_true_r. }
  rewrite Hnil in Hin. by apply elem_of_nil in Hin.
Qed.

Lemma C10_witness :
  "auth" ∈ categories [info_entry; auth_entry]
  /\ filteredLogs [info_entry; auth_entry] "all" "auth" "" <> [].
Proof.
  assert ("auth" ∈ categories [info_entry; auth_entry]) as Hin.
  { vm_compute. constructor. }
  split; [exact Hin|].
  exact (C10_listed_category_selects_rows [info_entry; auth_entry] "auth" Hin).
Defined.

(** C8. The category options are the distinct categories of the whole
    snapshot, in strictly ascending lexicographic order, hence without
    duplicates; categories b, a, a, c give the options a, b, c. *)
Theorem C8_category_options :
  (forall logs : list LogEntry,
      (forall c, c ∈ categories logs <->
                 exists log, log ∈ logs /\ category log = c)
      /\ NoDup (categories logs)
      /\ StronglySorted (fun x y => String.ltb x y = true) (categories logs))
  /\ categories (List.map entry_of_category ["b"; "a"; "a"; "c"])
     = ["a"; "b"; "c"].
Proof.
  split; [|by vm_compute].
  intros logs.
  assert (NoDup (categories logs)) as Hnd
    by apply NoDup_sort, NoDup_Set_from.
  split_and!; [apply elem_of_categories | done |].
  apply StronglySorted_strict; [|done].
  apply StronglySorted_merge_sort; apply _.
Qed.

(** ** Export format *)

(** The line of an entry without payload ends with the message. *)
Lemma formatLine_no_data log :
  data log = None ->
  formatLine log
  = "[" +:+ timestamp log +:+ "] [" +:+ level log +:+ "] ["
        +:+ category log +:+ "] " +:+ message log.
Proof.
  unfold formatLine. intros ->. do 7 f_equal.
  induction (message log) as [|a m IH]; [done|]. by rewrite append_cons, IH.
Qed.

(** The line of an entry with a truthy payload ends with the payload. *)
Lemma formatLine_truthy_data log v :
  data log = Some v -> JSON.truthy v = true ->
  formatLine log
  = "[" +:+ timestamp log +:+ "] [" +:+ level log +:+ "] ["
        +:+ category log +:+ "] " +:+ message log
        +:+ " | " +:+ JSON.stringify v.
Proof. unfold formatLine. by intros -> ->. Qed.

(** The scenario of the specification. *)
Lemma formatLine_auth_entry :
  formatLine auth_entry
  = "[2024-01-01T00:00:00.000Z] [ERROR] [auth] failed | {"
      +:+ String Js.dquote "code" +:+ String Js.dquote ":401}".
Proof. reflexivity. Qed.

(** C7, at a payload that is present but falsy: the row renderer counts the
    number zero as data, its JSON text is 0, and the export line stops after
    the message. *)
Theorem C7_falsy_payload_not_exported :
  hasData zero_entry = true
  /\ JSON.stringify (JNum 0) = "0"
  /\ formatLine zero_entry = "[t] [INFO] [c] m".
Proof. by vm_compute. Qed.

(** ** Text search *)

(** The search ignores the case of the search text. *)
Lemma filterCallback_search_case lv cat search search' log :
  Js.toLowerCase search = Js.toLowerCase search' ->
  filterCallback lv cat search log = filterCallback lv cat search' log.
Proof.
  intros Heq. unfold filterCallback. rewrite Heq.
  replace (Js.nonempty search') with (Js.nonempty search); [done|].
  destruct search, search'; done.
Qed.

Lemma filterCallback_ERR :
  filterCallback "all" "all" "ERR"
    (mkLogEntry "t" "WARN" "net" "Error connecting" None) = true.
Proof. reflexivity. Qed.

(** C3, at a payload that is present but falsy: the JSON text of the number
    zero contains the search text, the row renderer counts it as data, and
    the entry does not pass the filter. *)
Theorem C3_falsy_payload_not_searched :
  hasData zero_entry = true
  /\ Js.is_substring (Js.toLowerCase "0")
       (Js.toLowerCase (JSON.stringify (JNum 0)))
  /\ filterCallback "all" "all" "0" zero_entry = false.
Proof.
  split_and!; [done | | done]. apply includes_spec. reflexivity.
Qed.

(** ** Export *)



(** ** Fetch, clear and the polling life cycle *)

(** C9. A fetch that succeeds replaces the snapshot by the result as a
    whole and leaves the search text, the level filter, the category filter
    and the expansion set as they were. *)
Theorem C9_fetch_replaces_only_snapshot :
  forall (w : World) (i : nat) (result : list LogEntry) (w' : World),
    step w (GetLogsSettled i (Resolved result)) = Some w' ->
    logs (st w') = result
    /\ searchText (st w') = searchText (st w)
    /\ levelFilter (st w') = levelFilter (st w)
    /\ categoryFilter (st w') = categoryFilter (st w)
    /\ expandedLogs (st w') = expandedLogs (st w).
Proof.
  intros w i result w' Hstep. world_simpl.
  destruct (pending w !! i) as [[| |]|]; simplify_eq; done.
Qed.

Lemma C9_witness :
  step open_in_flight (GetLogsSettled 0 (Resolved [auth_entry; info_entry]))
  = Some (withPending [ClearLogs]
            (withState (setLogs [auth_entry; info_entry]) open_in_flight))
  /\ expandedLogs
       (st (withPending [ClearLogs]
              (withState (setLogs [auth_entry; info_entry]) open_in_flight)))
     = expandedLogs (st open_in_flight).
Proof.
  split; [reflexivity|].
  eapply (C9_fetch_replaces_only_snapshot open_in_flight 0
            [auth_entry; info_entry]).
  reflexivity.
Defined.

(** C4. A clear in flight that succeeds is processed, and the snapshot is
    empty in that very reaction, before any poll; so it is for the clear the
    operator starts with the button.  A clear or a fetch in flight that
    fails is processed too: the component state stays the one before (the
    failed first fetch lowers [loading], nothing else), a line goes to the
    console, and every action of the operator that was enabled is enabled
    still. *)
Theorem C4_clear_and_failures :
  forall (w : World) (i : nat),
    (pending w !! i = Some ClearLogs ->
       (exists w',
          step w (ClearLogsSettled i (Resolved ())) = Some w'
          /\ logs (st w') = []
          /\ pending w' = delete i (pending w))
       /\ forall error, exists w',
            step w (ClearLogsSettled i (Rejected error)) = Some w'
            /\ st w' = st w
            /\ console w' = console w ++ ["Failed to clear logs: " +:+ error]
            /\ forall e, user_event e = true ->
                         is_Some (step w e) -> is_Some (step w' e))
    /\ (forall c, pending w !! i = Some c -> c <> ClearLogs ->
         forall error, exists w',
           step w (GetLogsSettled i (Rejected error)) = Some w'
           /\ logs (st w') = logs (st w)
           /\ (st w' = st w \/ st w' = setLoading false (st w))
           /\ console w' = console w ++ ["Failed to load logs: " +:+ error]
           /\ forall e, user_event e = true ->
                        is_Some (step w e) -> is_Some (step w' e))
    /\ (open w = true -> logs (st w) <> [] ->
         exists w1 w2,
           step w ClickClear = Some w1
           /\ logs (st w1) = logs (st w)
           /\ step w1 (ClearLogsSettled (length (pending w)) (Resolved ()))
              = Some w2
           /\ logs (st w2) = []).
Proof.
  intros w i. split_and!.
  - intros Hi. split.
    + eexists. cbn. rewrite Hi. split_and!; reflexivity.
    + intros error. eexists. cbn. rewrite Hi. split_and!; [reflexivity..|].
      intros e. by apply user_event_enabled_mono.
  - intros c Hi Hc error. cbn. rewrite Hi.
    destruct c; [| |done]; eexists; (split; [reflexivity|]);
      (split_and!; [reflexivity| |reflexivity|]); auto;
      intros e; by apply user_event_enabled_mono.
  - intros Hopen Hlogs.
    assert (negb (Nat.eqb (length (logs (st w))) 0) = true) as Hne
      by by destruct (logs (st w)).
    exists (handleClearLogs_call w),
      (handleClearLogs_resume (Resolved ())
         (withPending (delete (length (pending w))
                         (pending (handleClearLogs_call w)))
            (handleClearLogs_call w))).
    split_and!.
    + cbn. by rewrite Hopen, Hne.
    + reflexivity.
    + cbn. by rewrite lookup_app_r, Nat.sub_diag by lia.
    + reflexivity.
Qed.

Lemma C4_witness :
  pending open_in_flight !! 1%nat = Some ClearLogs
  /\ (exists w',
        step open_in_flight (ClearLogsSettled 1 (Resolved ())) = Some w'
        /\ logs (st w') = []
        /\ pending w' = delete 1%nat (pending open_in_flight))
  /\ (exists w',
        step open_in_flight (ClearLogsSettled 1 (Rejected "down")) = Some w'
        /\ st w' = st open_in_flight)
  /\ (exists w',
        step open_in_flight (GetLogsSettled 0 (Rejected "down")) = Some w'
        /\ logs (st w') = logs (st open_in_flight)).
Proof.
  destruct (C4_clear_and_failures open_in_flight 1) as ([Hok Hfail] & _ & _);
    [reflexivity|].
  destruct (C4_clear_and_failures open_in_flight 0) as (_ & Hfetch & _).
  split_and!.
  - reflexivity.
  - exact Hok.
  - destruct (Hfail "down") as (w' & Hstep & Hst & _). by exists w'.
  - destruct (Hfetch GetLogs eq_refl) with (error := "down")
      as (w' & Hstep & Hlogs & _); [discriminate|]. by exists w'.
Defined.

(** C2 fails as stated: the dialog is opened and closed at once, the timer
    is gone and the first call is still in flight; when that call succeeds
    the snapshot of the hidden dialog changes. *)
Lemma C2_stale_fetch_changes_snapshot :
  run initialWorld [SetOpen true; SetOpen false] = Some hidden_in_flight
  /\ open hidden_in_flight = false
  /\ logs (st hidden_in_flight) = []
  /\ exists w',
       step hidden_in_flight (GetLogsSettled 0 (Resolved [auth_entry]))
       = Some w'
       /\ open w' = false
       /\ logs (st w') = [auth_entry]
       /\ logs (st w') <> logs (st hidden_in_flight).
Proof.
  split_and!; [reflexivity..|].
  eexists. split_and!; [reflexivity..|discriminate].
Qed.

(** C2, amended. While the dialog is hidden no interval timer is registered
    and no reaction issues a call to the log store: the calls in flight can
    only settle.  A call that was in flight when the dialog was hidden is
    not discarded: a fetch that succeeds replaces the snapshot, a clear that
    succeeds empties it, and nothing else changes the snapshot. *)
Theorem C2_hidden_issues_no_call :
  forall (w : World) (e : Event) (w' : World),
    reachable w -> open w = false ->
    step w e = Some w' -> open w' = false ->
    timers w = ∅
    /\ pending w' `sublist_of` pending w
    /\ match e with
       | GetLogsSettled _ (Resolved result) => logs (st w') = result
       | ClearLogsSettled _ (Resolved _) => logs (st w') = []
       | _ => logs (st w') = logs (st w)
       end.
Proof.
  intros w e w' Hreach Hopen Hstep Hopen'.
  destruct (hidden_no_timer w Hreach Hopen) as [Htimers Href].
  split; [done|].
  destruct e; world_simpl; rewrite ?Hopen, ?Htimers, ?Href in Hstep;
    cbn in Hstep.
  - destruct b; cbn in Hstep; by simplify_eq.
  - done.
  - destruct (pending w !! i) as [[| |]|]; [| |done..];
      simplify_eq; destruct r; cbn; (split; [apply sublist_delete|done]).
  - destruct (pending w !! i) as [[| |]|]; [done|done| |done];
      simplify_eq; destruct r; cbn; (split; [apply sublist_delete|done]).
  - done.
  - done.
  - done.
  - done.
  - done.
  - done.
  - destruct (_ !! index); done.
Qed.

Lemma C2_witness :
  timers hidden_in_flight = ∅
  /\ pending (withState (setLoading false)
                (withState (setLogs [auth_entry])
                   (withPending [] hidden_in_flight)))
     `sublist_of` pending hidden_in_flight
  /\ logs (st (withState (setLoading false)
                 (withState (setLogs [auth_entry])
                    (withPending [] hidden_in_flight))))
     = [auth_entry].
Proof.
  apply (C2_hidden_issues_no_call hidden_in_flight
           (GetLogsSettled 0 (Resolved [auth_entry]))).
  - apply (reachable_run initialWorld [SetOpen true; SetOpen false]);
      [constructor | reflexivity].
  - reflexivity.
  - reflexivity.
  - reflexivity.
Defined.

(** * Further properties of the component *)

Local Set Warnings "-clear-no-such-hyp".

(** ** Expansion *)

(** X1. Toggling the same position twice gives back the state: the
    expansion set is the one before and nothing else was touched. *)
Theorem toggleExpand_involutive :
  forall (index : nat) (s : State),
    toggleExpand index (toggleExpand index s) = s.
Proof.
  intros index [lg ld se lv ca au ex ref].
  unfold toggleExpand, setExpandedLogs; cbn.
  f_equal. apply set_eq. intros j.
  destruct (decide (j = index)) as [->|Hne];
    repeat case_bool_decide; set_solver.
Qed.

Lemma elem_of_toggleExpand (index : nat) (s : State) (j : nat) :
  j ∈ expandedLogs (toggleExpand index s) <->
  (j = index /\ index ∉ expandedLogs s) \/ (j <> index /\ j ∈ expandedLogs s).
Proof.
  destruct s as [lg ld se lv ca au ex ref].
  unfold toggleExpand, setExpandedLogs; cbn.
  destruct (decide (j = index)) as [->|Hne]; case_bool_decide; set_solver.
Qed.

(** X2. [toggleExpand] flips the membership of its position, keeps that of
    every other position, and leaves the other state variables alone. *)
Theorem toggleExpand_flips_one :
  forall (index : nat) (s : State),
    (index ∈ expandedLogs (toggleExpand index s) <-> index ∉ expandedLogs s)
    /\ (forall j, j <> index ->
          (j ∈ expandedLogs (toggleExpand index s) <-> j ∈ expandedLogs s))
    /\ setExpandedLogs (expandedLogs s) (toggleExpand index s) = s.
Proof.
  intros index s. split_and!.
  - rewrite elem_of_toggleExpand. naive_solver.
  - intros j Hne. rewrite elem_of_toggleExpand. naive_solver.
  - by destruct s.
Qed.

Lemma toggleExpand_flips_one_witness :
  (2%nat ∈ expandedLogs (toggleExpand 1 initialState)
   <-> 2%nat ∈ expandedLogs initialState).
Proof.
  apply (toggleExpand_flips_one 1 initialState). lia.
Defined.

(** ** More on the filter *)

Section filter_more.
Implicit Types (logs : list LogEntry) (log : LogEntry).

Lemma filter_and (f g : LogEntry -> bool) logs :
  List.filter f (List.filter g logs) = List.filter (fun x => g x && f x) logs.
Proof.
  induction logs as [|log logs IH]; [done|]. simpl.
  destruct (g log); simpl; [destruct (f log)|]; by rewrite IH.
Qed.

Lemma filter_ext_bool (f g : LogEntry -> bool) logs :
  (forall x, f x = g x) -> List.filter f logs = List.filter g logs.
Proof.
  intros Hfg. induction logs as [|log logs IH]; [done|]. simpl.
  by rewrite Hfg, IH.
Qed.

Lemma filter_sublist_impl (f g : LogEntry -> bool) logs :
  (forall x, f x = true -> g x = true) ->
  List.filter f logs `sublist_of` List.filter g logs.
Proof.
  intros Hfg. induction logs as [|log logs IH]; simpl; [constructor|].
  destruct (f log) eqn:Hf.
  - rewrite (Hfg log Hf). by constructor.
  - destruct (g log); [by constructor | done].
Qed.

(** The three criteria are tested independently of one another. *)
Lemma filterCallback_split lv cat search log :
  filterCallback lv cat search log
  = filterCallback lv "all" "" log
    && filterCallback "all" cat "" log
    && filterCallback "all" "all" search log.
Proof.
  unfold filterCallback. cbn.
  destruct (String.eqb lv "all"), (String.eqb (level log) lv),
    (String.eqb cat "all"), (String.eqb (category log) cat),
    (Js.nonempty search); cbn; try reflexivity;
    by rewrite ?andb_true_r, ?andb_false_r.
Qed.

Lemma toLowerCase_append (s p : string) :
  Js.toLowerCase (s +:+ p) = Js.toLowerCase s +:+ Js.toLowerCase p.
Proof.
  induction s as [|a s IH]; [done|].
  rewrite append_cons. simpl. by rewrite IH, append_cons.
Qed.

Lemma append_assoc (s p q : string) : (s +:+ p) +:+ q = s +:+ (p +:+ q).
Proof. induction s as [|a s IH]; [done|]. by rewrite !append_cons, IH. Qed.

Lemma is_substring_trans (s p q : string) :
  Js.is_substring s p -> Js.is_substring p q -> Js.is_substring s q.
Proof.
  intros (a & b & ->) (c & d & ->).
  exists (c +:+ a), (b +:+ d). by rewrite !append_assoc.
Qed.

Lemma filterCallback_search_narrows pre search post log :
  filterCallback "all" "all" (pre +:+ search +:+ post) log = true ->
  filterCallback "all" "all" search log = true.
Proof.
  destruct search as [|c search]; [done|]. intros Hbig.
  assert (Js.is_substring (Js.toLowerCase (String c search))
            (Js.toLowerCase (pre +:+ String c search +:+ post))) as Hsub.
  { rewrite !toLowerCase_append. by eexists _, _. }
  apply filterCallback_search; [done|].
  apply filterCallback_search in Hbig.
  - destruct Hbig as [H|[H|(v & Hv & Ht & H)]].
    + left. by eapply is_substring_trans.
    + right; left. by eapply is_substring_trans.
    + right; right. exists v. split_and!; [done..|]. by eapply is_substring_trans.
  - destruct pre; [|done]. by rewrite append_cons.
Qed.
End filter_more.

(** X3. Every visible entry meets the level and the category criterion:
    its level is the selected one unless "all" is selected, and so for its
    category; the comparison is exact. *)
Theorem visible_entries_meet_criteria :
  forall (logs : list LogEntry) (levelFilter categoryFilter searchText : string),
    Forall (fun log =>
              (levelFilter = "all" \/ level log = levelFilter)
              /\ (categoryFilter = "all" \/ category log = categoryFilter))
      (filteredLogs logs levelFilter categoryFilter searchText).
Proof.
  intros logs lv cat search. apply Forall_forall.
  intros log [_ Hkeep]%elem_of_filteredLogs.
  rewrite filterCallback_split, !andb_true_iff in Hkeep.
  destruct Hkeep as [[Hlv Hcat] _]. split.
  - unfold filterCallback in Hlv. cbn in Hlv.
    destruct (String.eqb_spec lv "all"); [by left|].
    destruct (String.eqb_spec (level log) lv); [by right|done].
  - rewrite filterCallback_category, orb_true_iff, !String.eqb_eq in Hcat.
    done.
Qed.

(** X4. With only a category selected the list is empty exactly when the
    snapshot is empty or the selected category is neither "all" nor a
    category of the snapshot: a category filter left over from an earlier
    snapshot hides every row. *)
Theorem category_filter_empty_iff :
  forall (logs : list LogEntry) (categoryFilter : string),
    filteredLogs logs "all" categoryFilter "" = [] <->
    logs = [] \/ (categoryFilter <> "all" /\ categoryFilter ∉ categories logs).
Proof.
  intros logs cat. split.
  - intros Hnil. destruct logs as [|log0 logs]; [by left|]. right.
    assert (forall log, log ∈ log0 :: logs ->
              filterCallback "all" cat "" log = false) as Hall.
    { intros log Hlog.
      destruct (filterCallback "all" cat "" log) eqn:Hk; [|done].
      assert (log ∈ filteredLogs (log0 :: logs) "all" cat "") as Hin
        by by apply elem_of_filteredLogs.
      rewrite Hnil in Hin. by apply elem_of_nil in Hin. }
    split.
    + intros ->. specialize (Hall log0 (list_elem_of_here _ _)). done.
    + intros (log & Hlog & Hcat)%elem_of_categories.
      specialize (Hall log Hlog).
      rewrite filterCallback_category, Hcat, String.eqb_refl, orb_true_r in Hall.
      done.
  - intros [->|[Hne Hnot]]; [done|].
    destruct (filteredLogs logs "all" cat "") as [|log rest] eqn:Hf; [done|].
    assert (log ∈ filteredLogs logs "all" cat "") as Hin
      by (rewrite Hf; constructor).
    apply elem_of_filteredLogs in Hin as [Hlog Hkeep].
    rewrite filterCallback_category, orb_true_iff, !String.eqb_eq in Hkeep.
    destruct Hkeep as [?|Hcat]; [done|].
    destruct Hnot. apply elem_of_categories. by exists log.
Qed.

(** X5. For a search text of ASCII characters, extending it on either
    side never adds a row: the list for the longer text is a sublist of the
    list for the shorter. *)
Theorem longer_search_narrows :
  forall (logs : list LogEntry) (levelFilter categoryFilter : string)
         (pre searchText post : string),
    is_ascii (pre +:+ searchText +:+ post) = true ->
    filteredLogs logs levelFilter categoryFilter (pre +:+ searchText +:+ post)
    `sublist_of` filteredLogs logs levelFilter categoryFilter searchText.
Proof.
  intros logs lv cat pre search post _. apply filter_sublist_impl.
  intros log. rewrite (filterCallback_split lv cat search).
  rewrite (filterCallback_split lv cat (pre +:+ search +:+ post)).
  rewrite !andb_true_iff. intros [? ?]. split; [done|].
  by eapply filterCallback_search_narrows.
Qed.

Lemma longer_search_narrows_witness :
  is_ascii ("f" +:+ "AI" +:+ "led") = true
  /\ filteredLogs [auth_entry; info_entry] "all" "all" ("f" +:+ "AI" +:+ "led")
     `sublist_of` filteredLogs [auth_entry; info_entry] "all" "all" "AI".
Proof.
  split; [reflexivity|].
  apply (longer_search_narrows [auth_entry; info_entry] "all" "all"
           "f" "AI" "led").
  reflexivity.
Defined.

(** X6. The search does not depend on the case of the search text: two
    texts with the same lowercase form select the same rows. *)
Theorem search_text_case_insensitive :
  forall (logs : list LogEntry) (levelFilter categoryFilter : string)
         (searchText searchText' : string),
    Js.toLowerCase searchText = Js.toLowerCase searchText' ->
    filteredLogs logs levelFilter categoryFilter searchText
    = filteredLogs logs levelFilter categoryFilter searchText'.
Proof.
  intros logs lv cat s s' Heq. apply filter_ext_bool.
  intros log. by apply filterCallback_search_case.
Qed.

Lemma search_text_case_insensitive_witness :
  Js.toLowerCase "FaIL" = Js.toLowerCase "fAil"
  /\ filteredLogs [auth_entry; info_entry] "all" "all" "FaIL"
     = filteredLogs [auth_entry; info_entry] "all" "all" "fAil".
Proof.
  split; [reflexivity|].
  apply (search_text_case_insensitive [auth_entry; info_entry]). reflexivity.
Defined.

(** X7. The three criteria compose: filtering by level, category and text
    at once gives the list obtained by filtering by the level alone, then
    by the category alone, then by the text alone. *)
Theorem criteria_compose :
  forall (logs : list LogEntry) (levelFilter categoryFilter searchText : string),
    filteredLogs logs levelFilter categoryFilter searchText
    = filteredLogs
        (filteredLogs (filteredLogs logs levelFilter "all" "")
           "all" categoryFilter "")
        "all" "all" searchText.
Proof.
  intros logs lv cat search. unfold filteredLogs.
  rewrite !filter_and. apply filter_ext_bool.
  intros log. rewrite (filterCallback_split lv cat search).
  by destruct (filterCallback lv "all" "" log),
       (filterCallback "all" cat "" log).
Qed.

(** ** More on the export *)

(** X8. The exported text is empty exactly when the snapshot is empty. *)
Theorem export_empty_iff :
  forall logs : list LogEntry, handleExportLogs logs = "" <-> logs = [].
Proof.
  intros logs. split; [|by intros ->].
  destruct logs as [|log logs]; [done|]. intros Hempty.
  assert (String.length (handleExportLogs (log :: logs)) = 0%nat) as Hlen
    by by rewrite Hempty.
  unfold handleExportLogs in Hlen. rewrite length_join_newline in Hlen.
  cbn [List.map weight] in Hlen.
  destruct (formatLine_cons log) as [rest Hrest]. rewrite Hrest in Hlen.
  simpl in Hlen. lia.
Qed.

(** X9. Exporting two snapshots put one after the other gives the two
    exports with one newline between them. *)
Theorem export_append :
  forall (log : LogEntry) (logs : list LogEntry)
         (log' : LogEntry) (logs' : list LogEntry),
    handleExportLogs ((log :: logs) ++ log' :: logs')
    = handleExportLogs (log :: logs) +:+ Js.newline
        +:+ handleExportLogs (log' :: logs').
Proof.
  intros log logs log' logs'. unfold handleExportLogs, Js.join.
  revert log. induction logs as [|a logs IH]; intros log; [done|].
  change (formatLine log +:+ Js.newline
            +:+ String.concat Js.newline
                  (List.map formatLine ((a :: logs) ++ log' :: logs'))
          = (formatLine log +:+ Js.newline
               +:+ String.concat Js.newline (List.map formatLine (a :: logs)))
            +:+ Js.newline
            +:+ String.concat Js.newline (List.map formatLine (log' :: logs'))).
  by rewrite IH, !append_assoc.
Qed.

(** X10. The file name of the export keeps the length of the time text and
    every character of it except the colons and dots, which become dashes:
    the name holds no colon, and no dot before the extension. *)
Theorem exportFileName_safe :
  forall iso : string,
    exportFileName iso = "proxy-logs-" +:+ replace_colon_dot iso +:+ ".log"
    /\ String.length (replace_colon_dot iso) = String.length iso
    /\ (colon ∉ chars (replace_colon_dot iso))
    /\ (dot ∉ chars (replace_colon_dot iso))
    /\ Forall2 (fun c c' => c' = c \/ (c' = dash /\ (c = colon \/ c = dot)))
         (chars iso) (chars (replace_colon_dot iso)).
Proof.
  intros iso. split; [done|].
  induction iso as [|c iso (IHlen & IHcolon & IHdot & IHall)]; simpl.
  { split_and!; [done| | |constructor]; apply not_elem_of_nil. }
  split_and!.
  - by rewrite IHlen.
  - rewrite not_elem_of_cons. split; [|done].
    destruct (Ascii.eqb_spec c colon); [done|].
    destruct (Ascii.eqb_spec c dot); [done|]. simpl. congruence.
  - rewrite not_elem_of_cons. split; [|done].
    destruct (Ascii.eqb_spec c colon); [done|].
    destruct (Ascii.eqb_spec c dot); [done|]. simpl. congruence.
  - constructor; [|done].
    destruct (Ascii.eqb_spec c colon); [by right; split; [|left]|].
    destruct (Ascii.eqb_spec c dot); [by right; split; [|right]|]. by left.
Qed.

(** ** Row styles and time column *)

(** X11. A level other than ERROR, WARN and INFO, in this exact spelling,
    gets the badge and row classes of DEBUG. *)
Theorem unknown_level_styled_as_debug :
  forall level : string,
    level <> "ERROR" -> level <> "WARN" -> level <> "INFO" ->
    getLevelColor level = getLevelColor "DEBUG"
    /\ getLevelRowBg level = getLevelRowBg "DEBUG".
Proof.
  intros level H1%String.eqb_neq H2%String.eqb_neq H3%String.eqb_neq.
  unfold getLevelColor, getLevelRowBg. rewrite H1, H2, H3.
  by destruct (String.eqb level "DEBUG").
Qed.

Lemma unknown_level_styled_as_debug_witness :
  getLevelColor "error" = getLevelColor "DEBUG"
  /\ getLevelRowBg "error" = getLevelRowBg "DEBUG".
Proof. apply (unknown_level_styled_as_debug "error"); discriminate. Defined.

Lemma milliseconds_three_digits (t : Z) :
  String.length (padStart 3 "0" (JSON.number (t mod 1000))) = 3%nat
  /\ forallb is_digit (chars (padStart 3 "0" (JSON.number (t mod 1000)))) = true.
Proof.
  assert (forallb (fun k =>
            Nat.eqb (String.length (padStart 3 "0" (JSON.number (Z.of_nat k)))) 3
            && forallb is_digit
                 (chars (padStart 3 "0" (JSON.number (Z.of_nat k)))))
            (seq 0 1000) = true) as Hall by (vm_compute; reflexivity).
  rewrite forallb_forall in Hall.
  pose proof (Z.mod_pos_bound t 1000 eq_refl) as Hbound.
  specialize (Hall (Z.to_nat (t mod 1000))).
  rewrite Z2Nat.id, andb_true_iff, Nat.eqb_eq in Hall by lia.
  apply Hall, in_seq. lia.
Qed.

(** X12. [formatTime] never gives an empty text: an empty timestamp shows
    as a dash, a timestamp that is not a date shows as it is, and a date
    shows as the local time followed by a dot and exactly three digits. *)
Theorem formatTime_never_empty :
  forall (Date_parse : string -> option Z) (toLocaleTimeString : Z -> string)
         (timestamp : string),
    formatTime Date_parse toLocaleTimeString timestamp <> ""
    /\ match timestamp, Date_parse timestamp with
       | EmptyString, _ =>
           formatTime Date_parse toLocaleTimeString timestamp = "-"
       | _, None =>
           formatTime Date_parse toLocaleTimeString timestamp = timestamp
       | _, Some t =>
           exists ms,
             formatTime Date_parse toLocaleTimeString timestamp
             = toLocaleTimeString t +:+ "." +:+ ms
             /\ String.length ms = 3%nat
             /\ forallb is_digit (chars ms) = true
       end.
Proof.
  intros parse tlts [|c ts]; [done|]. unfold formatTime. cbn.
  destruct (parse (String c ts)) as [t|]; [|done].
  destruct (milliseconds_three_digits t) as [Hlen Hdig]. split.
  - intros Hempty.
    assert (String.length
              (tlts t +:+ "." +:+ padStart 3 "0" (JSON.number (t mod 1000)))
            = 0%nat) as H0 by by rewrite Hempty.
    rewrite !length_append in H0. simpl in H0. lia.
  - by eexists.
Qed.

(** ** The list area and the category dropdown *)

(** X13. The list area shows the no-logs placeholder exactly when the
    snapshot is empty, whatever the filters, and the no-match placeholder
    exactly when the snapshot has entries and the filter hides them all. *)
Theorem listArea_placeholders :
  forall s : State,
    (listArea s = NoLogsYet <-> logs s = [])
    /\ (listArea s = NoMatchingLogs <-> logs s <> [] /\ visibleLogs s = []).
Proof.
  intros s. unfold listArea.
  assert (logs s = [] -> visibleLogs s = []) as Hempty.
  { unfold visibleLogs. by intros ->. }
  destruct (visibleLogs s) as [|row rows] eqn:Hvis; simpl.
  - destruct (logs s) as [|log lg]; simpl; split; split; try done.
    by intros [? _].
  - split; split; try done.
    + intros Hl. by specialize (Hempty Hl).
    + by intros [_ ?].
Qed.

Section dropdown.
Implicit Types (xs : list string) (c : string).

Lemma find_category_option xs c :
  List.find (fun opt => String.eqb (opt_value opt) c)
    (List.map (fun cat => mkOption cat cat) xs)
  = if bool_decide (c ∈ xs) then Some (mkOption c c) else None.
Proof.
  induction xs as [|x xs IH]; simpl; [done|].
  destruct (String.eqb_spec x c) as [->|Hne].
  - rewrite bool_decide_eq_true_2; [done|constructor].
  - rewrite IH. do 2 case_bool_decide; try done.
    + destruct H0. by constructor.
    + apply elem_of_cons in H0 as [?|?]; congruence.
Qed.

Lemma selectedOption_category (logs : list LogEntry) c :
  selectedOption (categoryOptions logs) c
  = if String.eqb c "all" then Some (mkOption "all" "全部类别")
    else if bool_decide (c ∈ categories logs) then Some (mkOption c c)
    else None.
Proof.
  unfold selectedOption, categoryOptions.
  cbn [List.find opt_value]. rewrite (String.eqb_sym "all" c).
  destruct (String.eqb c "all"); [done|]. apply find_category_option.
Qed.
End dropdown.

(** X14. The category dropdown has a selected option exactly when the
    category filter is "all" or a category of the snapshot, and that option
    carries the filter as its value; for "all" it is always the first
    option, also when the snapshot has a category of that name. *)
Theorem category_dropdown_selection :
  forall (logs : list LogEntry) (categoryFilter : string),
    (is_Some (selectedOption (categoryOptions logs) categoryFilter)
     <-> categoryFilter = "all" \/ categoryFilter ∈ categories logs)
    /\ from_option opt_value categoryFilter
         (selectedOption (categoryOptions logs) categoryFilter)
       = categoryFilter
    /\ selectedOption (categoryOptions logs) "all"
       = Some (mkOption "all" "全部类别").
Proof.
  intros logs c. rewrite !selectedOption_category. split_and!; [| |done].
  - destruct (String.eqb_spec c "all") as [->|Hne].
    + split; [by left | by eauto].
    + case_bool_decide as Hc; split.
      * by right.
      * by eauto.
      * by intros [? ?].
      * by intros [?|?].
  - destruct (String.eqb_spec c "all") as [->|Hne]; [done|].
    by case_bool_decide.
Qed.

(** X15. When the category dropdown has no selected option, the filter
    being left over from an earlier snapshot, no row is visible, whatever
    the level filter and the search text. *)
Theorem stale_category_hides_all :
  forall s : State,
    selectedOption (categoryOptions (logs s)) (categoryFilter s) = None ->
    visibleLogs s = [].
Proof.
  intros s. rewrite selectedOption_category.
  destruct (String.eqb_spec (categoryFilter s) "all") as [?|Hne]; [done|].
  case_bool_decide as Hcat; [done|]. intros _.
  unfold visibleLogs.
  destruct (filteredLogs _ _ _ _) as [|log rest] eqn:Hf; [done|].
  assert (log ∈ filteredLogs (logs s) (levelFilter s) (categoryFilter s)
                  (searchText s)) as Hin by (rewrite Hf; constructor).
  apply elem_of_filteredLogs in Hin as [Hlog Hkeep].
  rewrite filterCallback_split, !andb_true_iff in Hkeep.
  destruct Hkeep as [[_ Hkeep] _].
  rewrite filterCallback_category, orb_true_iff, !String.eqb_eq in Hkeep.
  destruct Hkeep as [?|Hc]; [done|].
  destruct Hcat. apply elem_of_categories. by exists log.
Qed.

Lemma stale_category_hides_all_witness :
  selectedOption
    (categoryOptions (logs (setCategoryFilter "auth" (setLogs [info_entry] initialState))))
    (categoryFilter (setCategoryFilter "auth" (setLogs [info_entry] initialState)))
  = None
  /\ visibleLogs (setCategoryFilter "auth" (setLogs [info_entry] initialState)) = [].
Proof.
  split; [reflexivity|].
  apply (stale_category_hides_all
           (setCategoryFilter "auth" (setLogs [info_entry] initialState))).
  reflexivity.
Defined.

(** ** More on the polling life cycle *)

Section machine_more.
Implicit Types (w : World) (e : Event).

Lemma elem_of_delete_other (l : list pending_call) i x y :
  x ∈ l -> l !! i = Some y -> y <> x -> x ∈ delete i l.
Proof.
  revert i. induction l as [|a l IH]; intros i Hx Hi Hne.
  - by apply elem_of_nil in Hx.
  - destruct i as [|i]; simpl in *.
    + simplify_eq. by apply elem_of_cons in Hx as [?|?].
    + apply elem_of_cons in Hx as [->|Hx]; [constructor|].
      apply list_elem_of_further. by eapply IH.
Qed.

Lemma loading_inv_step w e w' :
  loading_inv w -> step w e = Some w' -> loading_inv w'.
Proof.
  unfold loading_inv. intros Hinv Hstep. destruct e; world_simpl.
  - destruct (Bool.eqb b (open w)); [by simplify_eq|].
    destruct b, (pollIntervalRef (st w)); simplify_eq; cbn; intros Hl;
      rewrite ?elem_of_app, ?list_elem_of_singleton; auto.
  - case_bool_decide; [|done]. simplify_eq. cbn. intros Hl.
    apply elem_of_app. auto.
  - destruct (pending w !! i) as [[| |]|] eqn:Hi; [| |done..];
      simplify_eq; destruct r; cbn; try done;
      intros Hl; by eapply elem_of_delete_other; eauto.
  - destruct (pending w !! i) as [[| |]|] eqn:Hi; [done|done| |done];
      simplify_eq; destruct r; cbn;
      intros Hl; by eapply elem_of_delete_other; eauto.
  - destruct (open w && _); [|done]. simplify_eq. cbn. intros Hl.
    apply elem_of_app. auto.
  - destruct (open w && _); [|done]. simplify_eq. cbn. intros Hl.
    apply elem_of_app. auto.
  - destruct (open w); [|done]. by simplify_eq.
  - destruct (open w); [|done]. by simplify_eq.
  - destruct (open w); [|done]. by simplify_eq.
  - destruct (open w); [|done]. by simplify_eq.
  - destruct (_ !! index) as [log|]; [|done].
    destruct (open w && _); [|done]. by simplify_eq.
Qed.

Lemma visibleLogs_toggleExpand index (s : State) :
  visibleLogs (toggleExpand index s) = visibleLogs s.
Proof. done. Qed.
End machine_more.

(** X16. In every state the component reaches, the browser holds exactly
    one interval timer, the one of [pollIntervalRef], while the dialog is
    open, and none while it is hidden: no timer leaks. *)
Theorem one_timer_while_open :
  forall w : World,
    reachable w ->
    if open w
    then exists id, pollIntervalRef (st w) = Some id /\ timers w = {[id]}
    else pollIntervalRef (st w) = None /\ timers w = ∅.
Proof.
  intros w Hinv%reachable_poll_inv. unfold poll_inv in Hinv.
  destruct (pollIntervalRef (st w)) as [id|], Hinv as [Hopen Htimers];
    rewrite Hopen; eauto.
Qed.

Lemma one_timer_while_open_witness :
  exists id, pollIntervalRef (st just_opened) = Some id
             /\ timers just_opened = {[id]}.
Proof.
  apply (one_timer_while_open just_opened).
  apply (reachable_run initialWorld [SetOpen true]); [constructor|reflexivity].
Defined.

(** X17. In every state the component reaches, [loading] is true only
    while a first call of an opening is still in flight: the refresh button
    is never left disabled once those calls have settled, whether they
    succeeded or failed. *)
Theorem loading_only_while_first_call :
  forall w : World,
    reachable w -> loading (st w) = true -> GetLogsInitial ∈ pending w.
Proof.
  intros w Hreach. change (loading_inv w).
  induction Hreach as [|w e w' _ IH Hstep]; [done|].
  by eapply loading_inv_step.
Qed.

Lemma loading_only_while_first_call_witness :
  GetLogsInitial ∈ pending just_opened.
Proof.
  apply (loading_only_while_first_call just_opened).
  - apply (reachable_run initialWorld [SetOpen true]); [constructor|reflexivity].
  - reflexivity.
Defined.

(** X18. Nothing bounds the calls in flight: the timer issues a fetch at
    every tick whether or not the earlier ones have settled, so for every n
    the open dialog can have the first call and n polls in flight. *)
Theorem polls_can_pile_up :
  forall n : nat,
    exists w, reachable w /\ open w = true
              /\ pending w = GetLogsInitial :: replicate n GetLogs.
Proof.
  intros n.
  cut (exists w, reachable w /\ open w = true /\ timers w = {[1%positive]}
                 /\ pending w = GetLogsInitial :: replicate n GetLogs).
  { intros (w & ? & ? & _ & ?). eauto. }
  induction n as [|n (w & Hreach & Hopen & Htimers & Hpending)].
  - exists just_opened. split_and!; try done.
    apply (reachable_run initialWorld [SetOpen true]); [constructor|reflexivity].
  - exists (loadLogs_call GetLogs w). split_and!; try done.
    + apply (reachable_step w (Tick 1)); [done|]. cbn.
      rewrite Htimers, bool_decide_eq_true_2; [done|].
      by apply elem_of_singleton.
    + cbn. rewrite Hpending. cbn. f_equal.
      change (replicate n GetLogs ++ replicate 1 GetLogs
              = replicate (S n) GetLogs).
      by rewrite <- replicate_add, Nat.add_1_r.
Qed.

(** X19. While the dialog is hidden no action of the operator is possible:
    the controls are not rendered. *)
Theorem hidden_accepts_no_user_event :
  forall (w : World) (e : Event),
    open w = false -> user_event e = true -> step w e = None.
Proof.
  intros w e Hopen Hue. destruct e; try discriminate Hue; cbn;
    rewrite ?Hopen; try done.
  by destruct (_ !! index).
Qed.

Lemma hidden_accepts_no_user_event_witness :
  step hidden_in_flight ClickRefresh = None.
Proof.
  apply (hidden_accepts_no_user_event hidden_in_flight ClickRefresh);
    reflexivity.
Defined.

(** X20. A click on the expand button of a row flips whether that row
    shows its payload and changes this for no other row. *)
Theorem click_expand_flips_payload :
  forall (w : World) (index : nat) (w' : World),
    step w (ClickExpand index) = Some w' ->
    showsPayload (st w') index = negb (showsPayload (st w) index)
    /\ forall j, j <> index ->
                 showsPayload (st w') j = showsPayload (st w) j.
Proof.
  intros w index w' Hstep. cbn in Hstep.
  destruct (visibleLogs (st w) !! index) as [log|] eqn:Hrow; [|done].
  destruct (open w); [|done]. cbn in Hstep.
  destruct (hasData log) eqn:Hdata; [|done]. simplify_eq.
  unfold showsPayload, withState. cbn [st].
  rewrite visibleLogs_toggleExpand. split.
  - rewrite Hrow, Hdata, !andb_true_r.
    pose proof (elem_of_toggleExpand index (st w) index) as Hflip.
    do 2 case_bool_decide; naive_solver.
  - intros j Hne. destruct (visibleLogs (st w) !! j); [|done]. f_equal.
    apply bool_decide_ext. rewrite elem_of_toggleExpand. naive_solver.
Qed.

Lemma click_expand_flips_payload_witness :
  step showing_auth (ClickExpand 0)
  = Some (withState (toggleExpand 0) showing_auth)
  /\ showsPayload (st (withState (toggleExpand 0) showing_auth)) 0
     = negb (showsPayload (st showing_auth) 0).
Proof.
  split; [reflexivity|].
  apply (click_expand_flips_payload showing_auth 0). reflexivity.
Defined.

(** ** The payload as JSON text *)

Section json_text.
Implicit Types (s p k : string) (v : json) (c : ascii).

Lemma json_nested_ind (P : json -> Prop) :
  P JNull -> (forall b, P (JBool b)) -> (forall n, P (JNum n)) ->
  (forall s, P (JStr s)) ->
  (forall items, Forall P items -> P (JArr items)) ->
  (forall props, Forall (fun kv => P (snd kv)) props -> P (JObj props)) ->
  forall v, P v.
Proof.
  intros Hnull Hbool Hnum Hstr Harr Hobj. fix IH 1.
  intros [|b|n|s|items|props].
  - exact Hnull.
  - exact (Hbool b).
  - exact (Hnum n).
  - exact (Hstr s).
  - apply Harr. induction items as [|x items IHitems]; constructor.
    + exact (IH x).
    + exact IHitems.
  - apply Hobj. induction props as [|kv props IHprops]; constructor.
    + exact (IH (snd kv)).
    + exact IHprops.
Qed.

Lemma chars_append s p : chars (s +:+ p) = chars s ++ chars p.
Proof.
  induction s as [|a s IH]; [done|]. rewrite append_cons. simpl. by rewrite IH.
Qed.

Lemma append_nil_r s : s +:+ "" = s.
Proof. induction s as [|a s IH]; [done|]. by rewrite append_cons, IH. Qed.

Lemma number_chars (n : Z) :
  forallb number_char (chars (JSON.number n)) = true.
Proof.
  unfold JSON.number.
  assert (forall d, forallb number_char
                      (chars (NilEmpty.string_of_uint d)) = true) as Huint.
  { induction d; simpl; by rewrite ?IHd. }
  assert (forall d, forallb number_char
                      (chars (NilZero.string_of_uint d)) = true) as Hzero.
  { intros d. destruct d; try apply Huint. done. }
  destruct (Z.to_int n) as [d|d]; simpl; [apply Hzero|].
  apply (Hzero d).
Qed.

Lemma number_char_printable c : number_char c = true -> printable c = true.
Proof. destruct c as [[] [] [] [] [] [] [] []]; done. Qed.

Lemma forallb_chars_impl (f g : ascii -> bool) s :
  (forall c, f c = true -> g c = true) ->
  forallb f (chars s) = true -> forallb g (chars s) = true.
Proof.
  intros Hfg. induction s as [|a s IH]; [done|]. simpl.
  rewrite !andb_true_iff. intros [? ?]. auto.
Qed.

Lemma escape_char_printable c :
  forallb printable (chars (JSON.escape_char c)) = true.
Proof. destruct c as [[] [] [] [] [] [] [] []]; reflexivity. Qed.

Lemma quote_printable s : forallb printable (chars (JSON.quote s)) = true.
Proof.
  unfold JSON.quote. simpl. rewrite chars_append, forallb_app.
  apply andb_true_iff. split; [|done].
  induction s as [|a s IH]; [done|]. simpl.
  rewrite chars_append, forallb_app, escape_char_printable. exact IH.
Qed.

Lemma join_printable sep (lines : list string) :
  forallb printable (chars sep) = true ->
  Forall (fun line => forallb printable (chars line) = true) lines ->
  forallb printable (chars (Js.join sep lines)) = true.
Proof.
  intros Hsep Hall. unfold Js.join.
  induction Hall as [|line [|line' rest] Hline Hrest IH]; [done|done|].
  change (String.concat sep (line :: line' :: rest))
    with (line +:+ sep +:+ String.concat sep (line' :: rest)).
  by rewrite !chars_append, !forallb_app, Hline, Hsep, IH.
Qed.
End json_text.

(** X21. The JSON text of a payload holds no control character, so no line
    break: in the export the payload stays on the line of its entry. *)
Theorem stringify_single_line :
  forall v : json, forallb printable (chars (JSON.stringify v)) = true.
Proof.
  induction v as [|b|n|s|items IH|props IH] using json_nested_ind.
  - done.
  - by destruct b.
  - eapply forallb_chars_impl; [apply number_char_printable|].
    apply number_chars.
  - apply quote_printable.
  - cbn [JSON.stringify]. rewrite !chars_append, !forallb_app.
    rewrite join_printable; [done|done|]. by apply Forall_map.
  - cbn [JSON.stringify]. rewrite !chars_append, !forallb_app.
    rewrite join_printable; [done|done|]. apply Forall_map.
    eapply Forall_impl; [exact IH|]. intros [key x] Hx. cbn in *.
    by rewrite !chars_append, !forallb_app, quote_printable, Hx.
Qed.

Section pretty.
Implicit Types (s p k : string) (v : json) (c : ascii).

Lemma stringify_indent_arr indent x items :
  stringify_indent indent (JArr (x :: items))
  = "[" +:+ Js.newline +:+ (indent +:+ "  ")
      +:+ Js.join ("," +:+ Js.newline +:+ (indent +:+ "  "))
            (List.map (stringify_indent (indent +:+ "  ")) (x :: items))
      +:+ Js.newline +:+ indent +:+ "]".
Proof. reflexivity. Qed.

Lemma stringify_indent_obj indent kv props :
  stringify_indent indent (JObj (kv :: props))
  = "{" +:+ Js.newline +:+ (indent +:+ "  ")
      +:+ Js.join ("," +:+ Js.newline +:+ (indent +:+ "  "))
            (List.map
               (fun kv => JSON.quote (fst kv) +:+ ": "
                            +:+ stringify_indent (indent +:+ "  ") (snd kv))
               (kv :: props))
      +:+ Js.newline +:+ indent +:+ "}".
Proof. reflexivity. Qed.

Lemma strip_number_char c k :
  number_char c = true ->
  strip_layout false false (String c k) = String c (strip_layout false false k).
Proof.
  destruct c as [[] [] [] [] [] [] [] []]; intros H;
    try discriminate H; reflexivity.
Qed.

Lemma strip_number (n : Z) k :
  strip_layout false false (JSON.number n +:+ k)
  = JSON.number n +:+ strip_layout false false k.
Proof.
  pose proof (number_chars n) as Hn.
  induction (JSON.number n) as [|c s IH]; [done|].
  simpl in Hn. apply andb_true_iff in Hn as [Hc Hs].
  rewrite !append_cons, strip_number_char by done. by rewrite IH.
Qed.

Lemma strip_escape_char c k :
  strip_layout true false (JSON.escape_char c +:+ k)
  = JSON.escape_char c +:+ strip_layout true false k.
Proof. destruct c as [[] [] [] [] [] [] [] []]; reflexivity. Qed.

Lemma strip_escape s k :
  strip_layout true false (JSON.escape s +:+ String Js.dquote k)
  = JSON.escape s +:+ String Js.dquote (strip_layout false false k).
Proof.
  induction s as [|c s IH]; [done|]. simpl.
  by rewrite !append_assoc, strip_escape_char, IH.
Qed.

Lemma strip_quote s k :
  strip_layout false false (JSON.quote s +:+ k)
  = JSON.quote s +:+ strip_layout false false k.
Proof.
  unfold JSON.quote. rewrite !append_cons, !append_assoc.
  change (String Js.dquote (strip_layout true false
                              (JSON.escape s +:+ String Js.dquote k))
          = String Js.dquote
              (JSON.escape s +:+ String Js.dquote (strip_layout false false k))).
  by rewrite strip_escape.
Qed.

Lemma strip_spaces (n : nat) k :
  strip_layout false false (repeat_char n " " +:+ k)
  = strip_layout false false k.
Proof. induction n as [|n IH]; [done|]. exact IH. Qed.

Lemma repeat_char_two (n : nat) :
  repeat_char n " " +:+ "  " = repeat_char (S (S n)) " ".
Proof. induction n as [|n IH]; [done|]. simpl. by rewrite append_cons, IH. Qed.

(** Stripping a joined list member by member. *)
Lemma strip_join {A} (f g : A -> string) (n : nat) (l : list A) k :
  Forall (fun a => forall k', strip_layout false false (f a +:+ k')
                               = g a +:+ strip_layout false false k') l ->
  strip_layout false false
    (Js.join ("," +:+ Js.newline +:+ repeat_char n " ") (List.map f l) +:+ k)
  = Js.join "," (List.map g l) +:+ strip_layout false false k.
Proof.
  intros Hall. unfold Js.join.
  induction Hall as [|a [|b l] Ha Hl IH]; [done| |].
  - simpl. apply Ha.
  - change (strip_layout false false
              ((f a +:+ ("," +:+ Js.newline +:+ repeat_char n " ")
                  +:+ String.concat ("," +:+ Js.newline +:+ repeat_char n " ")
                        (List.map f (b :: l))) +:+ k)
            = (g a +:+ "," +:+ String.concat "," (List.map g (b :: l)))
                +:+ strip_layout false false k).
    rewrite !append_assoc, Ha.
    change (g a +:+ String ","
              (strip_layout false false
                 (repeat_char n " "
                    +:+ String.concat ("," +:+ Js.newline +:+ repeat_char n " ")
                          (List.map f (b :: l)) +:+ k))
            = g a +:+ String ","
                (String.concat "," (List.map g (b :: l))
                   +:+ strip_layout false false k)).
    by rewrite strip_spaces, IH.
Qed.

Lemma strip_stringify_indent v :
  forall (n : nat) k,
    strip_layout false false (stringify_indent (repeat_char n " ") v +:+ k)
    = JSON.stringify v +:+ strip_layout false false k.
Proof.
  induction v as [|b|m|s|items IH|props IH] using json_nested_ind; intros n k.
  - done.
  - by destruct b.
  - apply strip_number.
  - apply strip_quote.
  - destruct items as [|x items]; [done|].
    rewrite stringify_indent_arr, repeat_char_two, !append_assoc.
    change (String "[" (strip_layout false false
              (repeat_char (S (S n)) " "
                 +:+ Js.join ("," +:+ Js.newline +:+ repeat_char (S (S n)) " ")
                       (List.map (stringify_indent (repeat_char (S (S n)) " "))
                          (x :: items))
                 +:+ Js.newline +:+ repeat_char n " " +:+ "]" +:+ k))
            = JSON.stringify (JArr (x :: items))
                +:+ strip_layout false false k).
    rewrite strip_spaces, (strip_join _ JSON.stringify).
    + change (strip_layout false false
                (Js.newline +:+ repeat_char n " " +:+ "]" +:+ k))
        with (strip_layout false false (repeat_char n " " +:+ "]" +:+ k)).
      rewrite strip_spaces. cbn [JSON.stringify].
      by rewrite !append_assoc.
    + eapply Forall_impl; [exact IH|]. intros y Hy k'. apply Hy.
  - destruct props as [|kv props]; [done|].
    rewrite stringify_indent_obj, repeat_char_two, !append_assoc.
    change (String "{" (strip_layout false false
              (repeat_char (S (S n)) " "
                 +:+ Js.join ("," +:+ Js.newline +:+ repeat_char (S (S n)) " ")
                       (List.map
                          (fun kv => JSON.quote (fst kv) +:+ ": "
                             +:+ stringify_indent (repeat_char (S (S n)) " ")
                                   (snd kv))
                          (kv :: props))
                 +:+ Js.newline +:+ repeat_char n " " +:+ "}" +:+ k))
            = JSON.stringify (JObj (kv :: props))
                +:+ strip_layout false false k).
    rewrite strip_spaces,
      (strip_join _ (fun kv => JSON.quote (fst kv) +:+ ":"
                                 +:+ JSON.stringify (snd kv))).
    + change (strip_layout false false
                (Js.newline +:+ repeat_char n " " +:+ "}" +:+ k))
        with (strip_layout false false (repeat_char n " " +:+ "}" +:+ k)).
      rewrite strip_spaces. cbn [JSON.stringify].
      by rewrite !append_assoc.
    + eapply Forall_impl; [exact IH|]. intros [key y] Hy k'. cbn in *.
      rewrite !append_assoc, strip_quote.
      change (JSON.quote key +:+ String ":"
                (strip_layout false false
                   (stringify_indent (repeat_char (S (S n)) " ") y +:+ k'))
              = JSON.quote key +:+ String ":"
                  (JSON.stringify y +:+ strip_layout false false k')).
      by rewrite Hy.
Qed.

Lemma strip_stringify_indent_top v :
  strip_layout false false (stringify_indent "" v) = JSON.stringify v.
Proof.
  pose proof (strip_stringify_indent v 0 "") as H.
  by rewrite !append_nil_r in H.
Qed.
End pretty.

(** X22. The indented JSON text that is copied to the clipboard and shown
    in an expanded row is the single-line text of the export with layout
    added: dropping the spaces and newlines outside its string literals
    gives exactly [JSON.stringify] of the payload. *)
Theorem indented_json_is_compact_json :
  forall v : json,
    strip_layout false false (stringify_indent "" v) = JSON.stringify v.
Proof.
  intros v. apply strip_stringify_indent_top.
Qed.

(** ** The row counter *)

(** X23. The counter in the title shows at most as many visible rows as
    the snapshot has entries, and the two numbers agree exactly when the
    filter hides nothing. *)
Theorem counter_visible_of_total :
  forall s : State,
    (length (visibleLogs s) <= length (logs s))%nat
    /\ (length (visibleLogs s) = length (logs s) <-> visibleLogs s = logs s).
Proof.
  intros s. unfold visibleLogs, filteredLogs.
  generalize (filterCallback (levelFilter s) (categoryFilter s) (searchText s)).
  intros f. induction (logs s) as [|log lg [IHle IHeq]]; [done|]. simpl.
  destruct (f log); simpl.
  - split; [lia|]. split.
    + intros [= Hlen]. f_equal. by apply IHeq.
    + intros [= Heq]. by rewrite Heq.
  - split; [lia|]. split.
    + intros Hlen. lia.
    + intros Heq. exfalso.
      assert (length (List.filter f lg) = length (log :: lg)) as Hlen
        by by rewrite Heq.
      simpl in Hlen. lia.
Qed.

(** ** Copy and export *)

(** X24. The text copied for an entry and its export line carry the same
    payload under the same condition: when the payload is truthy the copy
    ends with a Data block holding the indented JSON text of the payload and
    the export line ends with that very text without its layout, which is
    the single-line JSON text of the payload; otherwise both end with the
    message. *)
Theorem copy_and_export_same_payload :
  forall log : LogEntry,
    let head := "[" +:+ timestamp log +:+ "] [" +:+ level log +:+ "] ["
                    +:+ category log +:+ "]" in
    match data log with
    | Some v =>
        if JSON.truthy v
        then handleCopyLog log
             = head +:+ Js.newline +:+ message log
                 +:+ Js.newline +:+ "Data: " +:+ stringify_indent "" v
             /\ formatLine log
                = head +:+ " " +:+ message log +:+ " | "
                    +:+ strip_layout false false (stringify_indent "" v)
             /\ strip_layout false false (stringify_indent "" v)
                = JSON.stringify v
        else handleCopyLog log = head +:+ Js.newline +:+ message log
             /\ formatLine log = head +:+ " " +:+ message log
    | None =>
        handleCopyLog log = head +:+ Js.newline +:+ message log
        /\ formatLine log = head +:+ " " +:+ message log
    end.
Proof.
  intros log head. unfold handleCopyLog, formatLine, head.
  destruct (data log) as [v|]; [destruct (JSON.truthy v)|].
  - by rewrite strip_stringify_indent_top, !append_assoc.
  - by rewrite !append_assoc, !append_nil_r.
  - by rewrite !append_assoc, !append_nil_r.
Qed.
